(** * pydcop agent: launching and supervising a cohort of agents

    A shallow embedding of [pydcop/commands/agent.py]: the launcher
    [start_agents], the supervisor [run_cmd] and the signal handler
    [on_force_exit], followed by the properties of the agent supervision
    subsystem.

    The module keeps two globals, [agents] and [force_stopped].  [run_cmd]
    runs in the main thread; [on_force_exit] has the two-argument signature
    of a Python signal handler, which the interpreter runs in the main thread
    between two bytecodes of whatever the main thread is executing.  The
    supervisor is therefore modelled as a machine that advances one statement
    per [Tick], and a [Signal] may be scheduled between any two ticks. *)

From Stdlib Require Import Ascii String.
From stdpp Require Import base tactics option list numbers strings.

Local Open Scope Z_scope.

(** ** Data model *)

(** An [OrchestratedAgent] as this module sees it: the arguments of its
    constructor.  [oid] is the identity of the Python object, so that two
    agents built with the same arguments by two launches are different
    handles. *)
Record agent := OrchestratedAgent {
  oid : nat;
  agt_def : string;                (* AgentDef(a) *)
  comm : option string * Z;        (* HttpCommunicationLayer((a_addr, a_port)) *)
  orchestrator_address : string * Z;  (* (o_addr, o_port) *)
  ui_port : option Z               (* ui_port=u_port *)
}.

(** The five [logger.info] call sites, with the values they format. *)
Inductive log_record :=
| Starting_with_ui (a : string) (a_port u_port : Z)
| Starting_without_ui (a : string) (a_port : Z)
| All_agents_started (n : nat)
| All_agents_have_stopped
| Wait_before_restarting.

(** What the module does to the outside world, in the order it does it. *)
Inductive event :=
| Log (r : log_record)
| Stdout (s : string)
| New (h : agent)
| Start (h : agent)
| Join (h : agent)
| Stop (h : agent)
| Sleep (secs : Z).

#[global] Instance agent_eq_dec : EqDecision agent.
Proof. solve_decision. Defined.
#[global] Instance log_record_eq_dec : EqDecision log_record.
Proof. solve_decision. Defined.
#[global] Instance event_eq_dec : EqDecision event.
Proof. solve_decision. Defined.

(** The parsed command line ([argparse] namespace). *)
Record args := Args {
  names : list string;
  address : option string;
  port : Z;
  orchestrator : string;
  uiport : option Z;
  restart : bool
}.

(** ** [start_agents] *)

(** Python truth value of [u_port]: [None] and [0] are false. *)
Definition truthy (u : option Z) : bool :=
  match u with
  | Some z => negb (z =? 0)
  | None => false
  end.

(** The locals of [start_agents] that change from one iteration to the
    next. *)
Record locals := Locals {
  started_agents : list agent;
  a_port : Z;
  u_port : option Z
}.

(** The per-agent log line (lines 234-241). *)
Definition starting_line (a : string) (l : locals) : log_record :=
  match u_port l with
  | Some u => if negb (u =? 0) then Starting_with_ui a (a_port l) u
              else Starting_without_ui a (a_port l)
  | None => Starting_without_ui a (a_port l)
  end.

(** One iteration of [for a in names] (lines 234-252); [id] is the identity
    of the agent object this iteration creates. *)
Definition loop_body (o_addr : string) (o_port : Z) (a_addr : option string)
    (a : string) (id : nat) (l : locals) : locals * list event :=
  let h := {| oid := id; agt_def := a; comm := (a_addr, a_port l);
              orchestrator_address := (o_addr, o_port);
              ui_port := u_port l |} in
  ({| started_agents := started_agents l ++ [h];
      a_port := a_port l + 1;
      u_port := if truthy (u_port l) then (λ u, u + 1) <$> u_port l
                else u_port l |},
   [Log (starting_line a l); New h; Start h]).

Fixpoint for_names (o_addr : string) (o_port : Z) (a_addr : option string)
    (nms : list string) (id : nat) (l : locals) : locals * list event :=
  match nms with
  | [] => (l, [])
  | a :: rest =>
      let '(l1, e1) := loop_body o_addr o_port a_addr a id l in
      let '(l2, e2) := for_names o_addr o_port a_addr rest (S id) l1 in
      (l2, e1 ++ e2)
  end.

(** [start_agents names o_addr o_port u_port a_addr a_port]; [id] is the
    identity of the first object created.  Returns the list of started
    agents and the events of the call. *)
Definition start_agents (nms : list string) (o_addr : string) (o_port : Z)
    (u : option Z) (a_addr : option string) (p : Z) (id : nat)
    : list agent * list event :=
  let '(l, ev) := for_names o_addr o_port a_addr nms id
                    {| started_agents := []; a_port := p; u_port := u |} in
  (started_agents l, ev ++ [Log (All_agents_started (length nms))]).

(** Projections of a trace. *)
Definition is_start (e : event) : option agent :=
  match e with Start h => Some h | _ => None end.
Definition is_new (e : event) : option agent :=
  match e with New h => Some h | _ => None end.
Definition is_join (e : event) : option agent :=
  match e with Join h => Some h | _ => None end.
Definition is_log (e : event) : option log_record :=
  match e with Log r => Some r | _ => None end.

Definition starts (ev : list event) : list agent := omap is_start ev.
Definition news (ev : list event) : list agent := omap is_new ev.
Definition joins (ev : list event) : list agent := omap is_join ev.
Definition logs (ev : list event) : list log_record := omap is_log ev.

(** The message port of a handle, and its UI port as the launcher's test
    [if u_port:] reads it when it chooses the log line. *)
Definition message_port (h : agent) : Z := snd (comm h).

(** ** [run_cmd] and [on_force_exit] *)

(** [str.split] with a one-character separator. *)
Fixpoint split (sep : ascii) (s : string) : list string :=
  match s with
  | EmptyString => [EmptyString]
  | String c s' =>
      if decide (c = sep) then EmptyString :: split sep s'
      else match split sep s' with
           | w :: ws => String c w :: ws
           | [] => [String c EmptyString]
           end
  end.

(** [sep in s]. *)
Fixpoint occurs (sep : ascii) (s : string) : bool :=
  match s with
  | EmptyString => false
  | String c s' => if decide (c = sep) then true else occurs sep s'
  end.

Inductive exn := ValueError.

(** Where the main thread is inside the body of [run_cmd] once the
    orchestrator address is unpacked. *)
Inductive point :=
| At_while                                   (* line 177: while not force_stopped *)
| At_call                                    (* lines 178, 191: the call is evaluated *)
| In_start (rest : list string) (o_port : Z) (l : locals)
                                             (* lines 233-253, inside start_agents *)
| At_assign (c : list agent)                 (* lines 178, 191: agents = ... *)
| In_join (rest : list agent)                (* lines 182-184 *)
| At_if                                      (* line 185: if force_stopped *)
| At_wait                                    (* line 187 *)
| At_sleep                                   (* line 188: sleep(10) *).

Inductive control :=
| Entry                                      (* run_cmd is about to run line 174 *)
| Running (o_addr o_port : string) (p : point)
| Returned
| Raised (e : exn).

(** The two module globals, the allocator of object identities and the
    control state of the main thread. *)
Record state := State {
  agents : list agent;
  force_stopped : bool;
  next_oid : nat;
  ctl : control
}.

Definition initial : state :=
  {| agents := []; force_stopped := false; next_oid := 0; ctl := Entry |}.

Definition goto (s : state) (c : control) : state :=
  {| agents := agents s; force_stopped := force_stopped s;
     next_oid := next_oid s; ctl := c |}.

(** The signal handler (lines 195-200). *)
Definition on_force_exit (s : state) : state * list event :=
  ({| agents := agents s; force_stopped := true;
      next_oid := next_oid s; ctl := ctl s |},
   Stdout "FORCE EXIT" :: (Stop <$> agents s)).

(** A port made of decimal digits only, the orchestrator port of the
    examples below. *)
Definition digit (c : ascii) : option Z :=
  let n := Z.of_N (N_of_ascii c) in
  if (48 <=? n) && (n <=? 57) then Some (n - 48) else None.

Fixpoint decimal_from (acc : Z) (s : string) : option Z :=
  match s with
  | EmptyString => Some acc
  | String c s' => d ← digit c; decimal_from (10 * acc + d) s'
  end.

Definition decimal (s : string) : option Z :=
  match s with
  | EmptyString => None
  | _ => decimal_from 0 s
  end.

(** The two command lines of the scenarios: three agents without UI and
    without restart, two agents with UI ports and [--restart]; and one agent
    with [--restart]. *)
Definition three_agents : args :=
  {| names := ["a1"; "a2"; "a3"]; address := None; port := 9001;
     orchestrator := "127.0.0.1:9000"; uiport := None; restart := false |}.

Definition two_agents_restart : args :=
  {| names := ["a1"; "a2"]; address := None; port := 9001;
     orchestrator := "127.0.0.1:9000"; uiport := Some 10001;
     restart := true |}.

Definition one_agent_restart : args :=
  {| names := ["a1"]; address := None; port := 9001;
     orchestrator := "127.0.0.1:9000"; uiport := None; restart := true |}.

Definition no_separator : args :=
  {| names := ["a1"; "a2"]; address := None; port := 9001;
     orchestrator := "127.0.0.1"; uiport := None; restart := true |}.

Section Supervisor.

(** Python's builtin [int], applied to the port part of the orchestrator
    address: [None] stands for [ValueError]. *)
Variable int : string → option Z.

(** One statement of the main thread. *)
Definition sup_step (a : args) (s : state) : state * list event :=
  match ctl s with
  | Entry =>
      match split ":" (orchestrator a) with
      | [o_addr; o_port] =>
          (goto s (Running o_addr o_port
                     (if restart a then At_while else At_call)), [])
      | _ => (goto s (Raised ValueError), [])
      end
  | Running o_addr o_port p =>
      match p with
      | At_while =>
          if force_stopped s then (goto s Returned, [])
          else (goto s (Running o_addr o_port At_call), [])
      | At_call =>
          match int o_port with
          | Some n =>
              (goto s (Running o_addr o_port
                         (In_start (names a) n
                            {| started_agents := []; a_port := port a;
                               u_port := uiport a |})), [])
          | None => (goto s (Raised ValueError), [])
          end
      | In_start (x :: rest) n l =>
          let '(l', ev) := loop_body o_addr n (address a) x (next_oid s) l in
          ({| agents := agents s; force_stopped := force_stopped s;
              next_oid := S (next_oid s);
              ctl := Running o_addr o_port (In_start rest n l') |}, ev)
      | In_start [] n l =>
          (goto s (Running o_addr o_port (At_assign (started_agents l))),
           [Log (All_agents_started (length (names a)))])
      | At_assign c =>
          ({| agents := c; force_stopped := force_stopped s;
              next_oid := next_oid s;
              ctl := if restart a then Running o_addr o_port (In_join c)
                     else Returned |}, [])
      | In_join (h :: rest) =>
          (goto s (Running o_addr o_port (In_join rest)), [Join h])
      | In_join [] =>
          (goto s (Running o_addr o_port At_if), [Log All_agents_have_stopped])
      | At_if =>
          if force_stopped s then (goto s Returned, [])
          else (goto s (Running o_addr o_port At_wait), [])
      | At_wait =>
          (goto s (Running o_addr o_port At_sleep), [Log Wait_before_restarting])
      | At_sleep =>
          (goto s (Running o_addr o_port At_while), [Sleep 10])
      end
  | Returned => (s, [])
  | Raised e => (s, [])
  end.

(** A schedule interleaves statements of the main thread with deliveries
    of the signal. *)
Inductive action := Tick | Signal.

Definition step (a : args) (act : action) (s : state) : state * list event :=
  match act with
  | Tick => sup_step a s
  | Signal => on_force_exit s
  end.

Fixpoint exec (a : args) (sched : list action) (s : state)
    : state * list event :=
  match sched with
  | [] => (s, [])
  | act :: sched' =>
      let '(s1, e1) := step a act s in
      let '(s2, e2) := exec a sched' s1 in
      (s2, e1 ++ e2)
  end.

(** Agents of a launch under way that are still to be started. *)
Definition pending (a : args) (c : control) : nat :=
  match c with
  | Running _ _ At_call => length (names a)
  | Running _ _ (In_start rest _ _) => length rest
  | _ => 0%nat
  end.

End Supervisor.

(** ** Closed form of a launch *)

(** [if u_port: u_port += 1]. *)
Definition bump (u : option Z) : option Z :=
  if truthy u then (λ z, z + 1) <$> u else u.

(** The agents of one launch and its events, read off the loop without the
    accumulator. *)
Fixpoint cohort (o_addr : string) (o_port : Z) (a_addr : option string)
    (nms : list string) (id : nat) (p : Z) (u : option Z) : list agent :=
  match nms with
  | [] => []
  | a :: rest =>
      OrchestratedAgent id a (a_addr, p) (o_addr, o_port) u
      :: cohort o_addr o_port a_addr rest (S id) (p + 1) (bump u)
  end.

Fixpoint launch_events (o_addr : string) (o_port : Z) (a_addr : option string)
    (nms : list string) (id : nat) (p : Z) (u : option Z) : list event :=
  match nms with
  | [] => []
  | a :: rest =>
      let h := OrchestratedAgent id a (a_addr, p) (o_addr, o_port) u in
      Log (starting_line a (Locals [] p u)) :: New h :: Start h
      :: launch_events o_addr o_port a_addr rest (S id) (p + 1) (bump u)
  end.

(** What identifies an agent to the orchestrator and the network: all the
    constructor arguments, the object identity left out. *)
Definition endpoint (h : agent)
    : string * (option string * Z) * (string * Z) * option Z :=
  (agt_def h, comm h, orchestrator_address h, ui_port h).

(** The events of one pass of the restart loop whose first new object is
    [id]: launch, joins in cohort order, the two log lines and the sleep. *)
Definition cycle_events (a : args) (o_addr : string) (o_port : Z) (id : nat)
    : list event :=
  let r := start_agents (names a) o_addr o_port (uiport a) (address a)
             (port a) id in
  r.2 ++ (Join <$> r.1)
      ++ [Log All_agents_have_stopped; Log Wait_before_restarting; Sleep 10].

Fixpoint cycles (a : args) (o_addr : string) (o_port : Z) (id : nat)
    (k : nat) : list event :=
  match k with
  | O => []
  | S k' => cycle_events a o_addr o_port id
            ++ cycles a o_addr o_port (id + length (names a)) k'
  end.

(** Number of [stop()] calls a handle receives in a trace. *)
Definition stops_of (h : agent) (ev : list event) : nat :=
  length (filter (λ e, e = Stop h) ev).

(** Object identities of a list of handles are distinct and already
    allocated. *)
Definition distinct_objects (nid : nat) (c : list agent) : Prop :=
  NoDup (oid <$> c) ∧ Forall (λ h, (oid h < nid)%nat) c.

(** Invariant of the machine: the handles it holds are distinct objects. *)
Definition inv (s : state) : Prop :=
  distinct_objects (next_oid s) (agents s) ∧
  match ctl s with
  | Running _ _ (In_start _ _ l) => distinct_objects (next_oid s) (started_agents l)
  | Running _ _ (At_assign c) => distinct_objects (next_oid s) c
  | _ => True
  end.

(** Control points of a run without [--restart]: none of them joins. *)
Definition plain_run (c : control) : Prop :=
  match c with
  | Running _ _ (In_join _) | Running _ _ At_if | Running _ _ At_wait
  | Running _ _ At_sleep | Running _ _ At_while => False
  | _ => True
  end.

(** ** Further definitions used by the properties *)

(** [s.count(sep)] for a one-character separator, and [sep.join(parts)]. *)
Fixpoint count_sep (sep : ascii) (s : string) : nat :=
  match s with
  | EmptyString => 0
  | String c s' => if decide (c = sep) then S (count_sep sep s')
                   else count_sep sep s'
  end.

Fixpoint join (sep : ascii) (parts : list string) : string :=
  match parts with
  | [] => EmptyString
  | [w] => w
  | w :: ws => String.append w (String sep (join sep ws))
  end.

(** The UI port the agent at position [i] is built with when the base UI
    port is [u]: positive ports count up, a port that is not positive counts
    up until it reaches 0 and stays there. *)
Definition ui_port_at (u i : Z) : Z :=
  if 0 <? u then u + i else Z.min (u + i) 0.



(** Statements of the main thread in a schedule, and the events of a trace
    that come from the main thread (the handler prints and stops). *)
Fixpoint ticks (sched : list action) : nat :=
  match sched with
  | [] => 0
  | Tick :: sched' => S (ticks sched')
  | Signal :: sched' => ticks sched'
  end.

Definition from_main (e : event) : bool :=
  match e with
  | Stdout _ | Stop _ => false
  | _ => true
  end.

Fixpoint main_events (ev : list event) : list event :=
  match ev with
  | [] => []
  | e :: ev' => if from_main e then e :: main_events ev' else main_events ev'
  end.

(** The main thread has left [run_cmd]. *)
Definition finished (c : control) : bool :=
  match c with
  | Returned | Raised _ => true
  | _ => false
  end.

(** Statements [run_cmd] still executes from a control point once
    [force_stopped] is true, a join() counting for one when it returns. *)
Definition after_assign (a : args) (n : nat) : nat :=
  if restart a then (n + 3)%nat else 1%nat.

Definition remaining (a : args) (c : control) : nat :=
  match c with
  | Entry => if restart a then 2%nat else (length (names a) + 4)%nat
  | Running _ _ p =>
      match p with
      | At_while => 1
      | At_call => 2 + length (names a) + after_assign a (length (names a))
      | In_start rest _ l =>
          1 + length rest
          + after_assign a (length (started_agents l) + length rest)
      | At_assign c => after_assign a (length c)
      | In_join rest => length rest + 2
      | At_if => 1
      | At_wait => 3
      | At_sleep => 2
      end%nat
  | Returned | Raised _ => 0%nat
  end.

(** A trace respects the life cycle of the handles when start() is called
    on constructed handles only, and join() and stop() on started handles
    only; [made] and [seen] are the handles constructed and started
    before the trace. *)
Fixpoint life_cycle (made seen : list agent) (ev : list event) : bool :=
  match ev with
  | [] => true
  | New h :: ev' => life_cycle (h :: made) seen ev'
  | Start h :: ev' =>
      bool_decide (h ∈ made) && life_cycle made (h :: seen) ev'
  | Join h :: ev' => bool_decide (h ∈ seen) && life_cycle made seen ev'
  | Stop h :: ev' => bool_decide (h ∈ seen) && life_cycle made seen ev'
  | _ :: ev' => life_cycle made seen ev'
  end.

(** The handles the main thread holds at a control point, and those of a
    launch that is under way. *)
Definition launching (c : control) : list agent :=
  match c with
  | Running _ _ (In_start _ _ l) => started_agents l
  | Running _ _ (At_assign c) => c
  | _ => []
  end.

Definition held (s : state) : list agent :=
  agents s ++ launching (ctl s)
  ++ match ctl s with
     | Running _ _ (In_join rest) => rest
     | _ => []
     end.

(** A list of handles is the complete result of one [start_agents] call
    made by [run_cmd]. *)
Definition is_cohort (a : args) (c : list agent) : Prop :=
  ∃ o_addr o_port id,
    c = (start_agents (names a) o_addr o_port (uiport a) (address a)
           (port a) id).1.

(** Invariant: [agents] is empty or a complete cohort, the launch under way
    is building one, and the handles still to join are the last of
    [agents]. *)
Definition whole (a : args) (s : state) : Prop :=
  (agents s = [] ∨ is_cohort a (agents s))
  ∧ match ctl s with
    | Running o_addr _ (In_start rest n l) =>
        ∃ id,
          started_agents l
          ++ cohort o_addr n (address a) rest (next_oid s) (a_port l) (u_port l)
          = cohort o_addr n (address a) (names a) id (port a) (uiport a)
    | Running _ _ (At_assign c) => is_cohort a c
    | Running _ _ (In_join rest) => ∃ joined, agents s = joined ++ rest
    | _ => True
    end.

(** Invariant: the handles of a launch under way are younger objects than
    the handles in [agents]. *)
Definition younger (s : state) : Prop :=
  inv s
  ∧ ∀ g h, g ∈ agents s → h ∈ launching (ctl s) → (oid g < oid h)%nat.

(** Two more command lines: an IPv6 orchestrator address, and a port given
    by name. *)
Definition ipv6_orchestrator : args :=
  {| names := ["a1"]; address := None; port := 9001;
     orchestrator := "::1:9000"; uiport := None; restart := false |}.


(** * Properties *)

(** ** The launcher *)

Section Launcher.

Variables (o_addr : string) (o_port : Z) (a_addr : option string).

Lemma for_names_closed nms : ∀ id l,
  for_names o_addr o_port a_addr nms id l =
  ({| started_agents :=
        started_agents l
        ++ cohort o_addr o_port a_addr nms id (a_port l) (u_port l);
      a_port := a_port l + Z.of_nat (length nms);
      u_port := Nat.iter (length nms) bump (u_port l) |},
   launch_events o_addr o_port a_addr nms id (a_port l) (u_port l)).
Proof.
  induction nms as [|a rest IH]; intros id [acc p u]; simpl.
  - by rewrite app_nil_r, Z.add_0_r.
  - rewrite IH; simpl. f_equal. f_equal.
    + by rewrite <- app_assoc.
    + lia.
    + symmetry. apply (Nat.iter_succ_r (length rest) bump u).
Qed.

Lemma start_agents_closed nms u p id :
  start_agents nms o_addr o_port u a_addr p id =
  (cohort o_addr o_port a_addr nms id p u,
   launch_events o_addr o_port a_addr nms id p u
   ++ [Log (All_agents_started (length nms))]).
Proof. unfold start_agents. by rewrite for_names_closed. Qed.

Lemma length_cohort nms : ∀ id p u,
  length (cohort o_addr o_port a_addr nms id p u) = length nms.
Proof. induction nms; intros; simpl; [done | by rewrite IHnms]. Qed.

Lemma cohort_names nms : ∀ id p u,
  agt_def <$> cohort o_addr o_port a_addr nms id p u = nms.
Proof. induction nms; intros; simpl; [done | by rewrite IHnms]. Qed.

Lemma cohort_oids nms : ∀ id p u,
  oid <$> cohort o_addr o_port a_addr nms id p u = seq id (length nms).
Proof. induction nms; intros; simpl; [done | by rewrite IHnms]. Qed.

Lemma cohort_message_ports nms : ∀ id p u,
  message_port <$> cohort o_addr o_port a_addr nms id p u =
  seqZ p (Z.of_nat (length nms)).
Proof.
  induction nms as [|a rest IH]; intros id p u; [done|].
  cbn [cohort fmap list_fmap length]. rewrite IH, (seqZ_cons p) by lia.
  cbn. do 2 f_equal; lia.
Qed.

Lemma starts_launch_events nms : ∀ id p u,
  starts (launch_events o_addr o_port a_addr nms id p u) =
  cohort o_addr o_port a_addr nms id p u.
Proof. induction nms; intros; simpl; [done | by rewrite IHnms]. Qed.

Lemma news_launch_events nms : ∀ id p u,
  news (launch_events o_addr o_port a_addr nms id p u) =
  cohort o_addr o_port a_addr nms id p u.
Proof. induction nms; intros; simpl; [done | by rewrite IHnms]. Qed.

Lemma joins_launch_events nms : ∀ id p u,
  joins (launch_events o_addr o_port a_addr nms id p u) = [].
Proof. induction nms; intros; simpl; [done | by rewrite IHnms]. Qed.

Lemma cohort_ui_absent nms : ∀ id p,
  ui_port <$> cohort o_addr o_port a_addr nms id p None =
  replicate (length nms) None.
Proof. induction nms; intros; simpl; [done | by rewrite IHnms]. Qed.

Lemma cohort_ui_zero nms : ∀ id p,
  ui_port <$> cohort o_addr o_port a_addr nms id p (Some 0) =
  replicate (length nms) (Some 0).
Proof. induction nms; intros; simpl; [done | by rewrite IHnms]. Qed.

Lemma logs_launch_absent nms : ∀ id p,
  logs (launch_events o_addr o_port a_addr nms id p None) =
  logs (launch_events o_addr o_port a_addr nms id p (Some 0)).
Proof. induction nms; intros; simpl; [done | by rewrite IHnms]. Qed.

Lemma cohort_endpoints nms : ∀ id id' p u,
  endpoint <$> cohort o_addr o_port a_addr nms id p u =
  endpoint <$> cohort o_addr o_port a_addr nms id' p u.
Proof.
  induction nms; intros; simpl; [done|]. f_equal. apply IHnms.
Qed.

Lemma cohort_fresh nms id p u :
  distinct_objects (id + length nms) (cohort o_addr o_port a_addr nms id p u).
Proof.
  split.
  - rewrite cohort_oids. apply NoDup_seq.
  - apply Forall_forall. intros h Hh.
    assert (oid h ∈ seq id (length nms)) as Hin.
    { rewrite <- (cohort_oids nms id p u). by apply list_elem_of_fmap_2. }
    apply elem_of_seq in Hin. lia.
Qed.

End Launcher.

Section Launcher_claims.

Variables (o_addr : string) (o_port : Z) (a_addr : option string).

Lemma logs_launch_without_ui nms : ∀ id p u,
  truthy u = false →
  logs (launch_events o_addr o_port a_addr nms id p u) =
  zip_with Starting_without_ui nms (seqZ p (Z.of_nat (length nms))).
Proof.
  induction nms as [|a rest IH]; intros id p u Hu; [done|].
  cbn [launch_events length]. rewrite (seqZ_cons p) by lia.
  assert (bump u = u) as -> by (unfold bump; by rewrite Hu).
  replace (Z.pred (Z.of_nat (S (length rest))))
    with (Z.of_nat (length rest)) by lia.
  replace (Z.succ p) with (p + 1) by lia.
  cbn. rewrite IH by done.
  f_equal. unfold starting_line; simpl.
  destruct u as [z|]; [|done]. simpl in Hu.
  by destruct (z =? 0).
Qed.


Lemma cohort_apart_from_ui nms : ∀ id p u u',
  truthy u = false → truthy u' = false →
  (λ h, (oid h, agt_def h, comm h, orchestrator_address h))
    <$> cohort o_addr o_port a_addr nms id p u =
  (λ h, (oid h, agt_def h, comm h, orchestrator_address h))
    <$> cohort o_addr o_port a_addr nms id p u'.
Proof.
  induction nms as [|a rest IH]; intros id p u u' Hu Hu'; [done|].
  cbn [cohort]. rewrite !fmap_cons.
  assert (bump u = u) as -> by (unfold bump; by rewrite Hu).
  assert (bump u' = u') as -> by (unfold bump; by rewrite Hu').
  f_equal. by apply IH.
Qed.


(** C7: a launch call over n names returns exactly n handles, in the order
    of the names, and the events of the call contain the start() of each
    of them, in that order (and one construction per handle). *)
Theorem C7_launch_starts_every_handle (nms : list string) (u : option Z)
    (p : Z) (id : nat) :
  let r := start_agents nms o_addr o_port u a_addr p id in
  length r.1 = length nms
  ∧ agt_def <$> r.1 = nms
  ∧ starts r.2 = r.1
  ∧ news r.2 = r.1.
Proof.
  cbv zeta. rewrite start_agents_closed. cbn [fst snd].
  unfold starts, news. rewrite !omap_app. cbn [omap is_start is_new].
  rewrite !app_nil_r.
  split; [apply length_cohort|]. split; [apply cohort_names|].
  split; [apply starts_launch_events | apply news_launch_events].
Qed.

(** C10 (as amended): the launcher treats a base UI port of 0 like no base
    UI port when it logs and when it increments: the log lines of the two
    launches are the same, every per-agent line being the one without
    ui-server, and the UI port is never incremented.  The handles differ in
    nothing but the UI port they are built with, which is the 0 that was
    given for every agent of the one launch and absent for every agent of
    the other. *)
Theorem C10_ui_port_zero_not_incremented (nms : list string) (p : Z)
    (id : nat) :
  let r0 := start_agents nms o_addr o_port (Some 0) a_addr p id in
  let rn := start_agents nms o_addr o_port None a_addr p id in
  logs r0.2 = logs rn.2
  ∧ logs r0.2 =
      zip_with Starting_without_ui nms (seqZ p (Z.of_nat (length nms)))
      ++ [All_agents_started (length nms)]
  ∧ ui_port <$> r0.1 = replicate (length nms) (Some 0)
  ∧ ui_port <$> rn.1 = replicate (length nms) None
  ∧ (λ h, (oid h, agt_def h, comm h, orchestrator_address h)) <$> r0.1
    = (λ h, (oid h, agt_def h, comm h, orchestrator_address h)) <$> rn.1.
Proof.
  cbv zeta. rewrite !start_agents_closed. cbn [fst snd].
  unfold logs. rewrite !omap_app. cbn [omap is_log]. fold logs.
  rewrite !logs_launch_without_ui by done.
  rewrite cohort_ui_zero, cohort_ui_absent.
  repeat split. by apply cohort_apart_from_ui.
Qed.

End Launcher_claims.



(** C10, as stated, fails: with the base UI port 0 the agent is built with
    the UI port 0, where the launch without a base UI port builds it with
    none, so the handles and the events of the two launches differ. *)
Lemma C10_ui_port_zero_counterexample :
  (start_agents ["a1"] "127.0.0.1" 9000 (Some 0) None 9001 0).1
  = [OrchestratedAgent 0 "a1" (None, 9001) ("127.0.0.1", 9000) (Some 0)]
  ∧ (start_agents ["a1"] "127.0.0.1" 9000 None None 9001 0).1
    = [OrchestratedAgent 0 "a1" (None, 9001) ("127.0.0.1", 9000) None]
  ∧ (start_agents ["a1"] "127.0.0.1" 9000 (Some 0) None 9001 0).1
    ≠ (start_agents ["a1"] "127.0.0.1" 9000 None None 9001 0).1
  ∧ (start_agents ["a1"] "127.0.0.1" 9000 (Some 0) None 9001 0).2
    ≠ (start_agents ["a1"] "127.0.0.1" 9000 None None 9001 0).2.
Proof.
  split; [reflexivity|]. split; [reflexivity|].
  split; intros H; vm_compute in H; discriminate H.
Qed.


(** ** The supervisor and the signal handler *)

Section Supervisor_properties.

Variable int : string → option Z.

Lemma exec_app a s1 s2 : ∀ s,
  exec int a (s1 ++ s2) s =
  let '(t1, e1) := exec int a s1 s in
  let '(t2, e2) := exec int a s2 t1 in (t2, e1 ++ e2).
Proof.
  induction s1 as [|act s1 IH]; intros s; simpl.
  - by destruct (exec int a s2 s).
  - destruct (step int a act s) as [t e]. rewrite IH.
    destruct (exec int a s1 t) as [t1 e1]. destruct (exec int a s2 t1) as [t2 e2].
    by rewrite app_assoc.
Qed.

Lemma exec_seq a s1 s2 s t1 e1 t2 e2 :
  exec int a s1 s = (t1, e1) → exec int a s2 t1 = (t2, e2) →
  exec int a (s1 ++ s2) s = (t2, e1 ++ e2).
Proof. intros H1 H2. by rewrite exec_app, H1, H2. Qed.

Lemma exec_in_start a o_addr o_str n rest : ∀ ag fs nid l,
  exec int a (replicate (length rest) Tick)
    (State ag fs nid (Running o_addr o_str (In_start rest n l))) =
  (State ag fs (nid + length rest)
     (Running o_addr o_str
        (In_start [] n (for_names o_addr n (address a) rest nid l).1)),
   (for_names o_addr n (address a) rest nid l).2).
Proof.
  induction rest as [|x rest IH]; intros ag fs nid l.
  - simpl. by rewrite Nat.add_0_r.
  - cbn [length replicate exec step sup_step ctl
         next_oid agents force_stopped for_names].
    destruct (loop_body o_addr n (address a) x nid l) as [l1 e1].
    rewrite IH.
    destruct (for_names o_addr n (address a) rest (S nid) l1) as [l2 e2].
    cbn [fst snd]. by rewrite Nat.add_succ_r.
Qed.

Lemma exec_in_join a o_addr o_str c : ∀ ag fs nid,
  exec int a (replicate (length c) Tick)
    (State ag fs nid (Running o_addr o_str (In_join c))) =
  (State ag fs nid (Running o_addr o_str (In_join [])), Join <$> c).
Proof.
  induction c as [|h c IH]; intros ag fs nid; [done|].
  simpl. unfold goto; simpl. by rewrite IH.
Qed.

(** A launch, from the evaluation of the call to the assignment of the
    global. *)
Lemma exec_launch a o_addr o_str n ag fs nid :
  int o_str = Some n →
  exec int a (replicate (length (names a) + 3) Tick)
    (State ag fs nid (Running o_addr o_str At_call)) =
  (State (start_agents (names a) o_addr n (uiport a) (address a) (port a) nid).1
     fs (nid + length (names a))
     (if restart a
      then Running o_addr o_str
             (In_join (start_agents (names a) o_addr n (uiport a) (address a)
                         (port a) nid).1)
      else Returned),
   (start_agents (names a) o_addr n (uiport a) (address a) (port a) nid).2).
Proof.
  intros Hn.
  replace (length (names a) + 3)%nat with (1 + (length (names a) + 2))%nat by lia.
  rewrite !replicate_add, !exec_app.
  cbn [replicate exec step sup_step ctl]. rewrite Hn. unfold goto at 1.
  cbn [agents force_stopped next_oid]. rewrite exec_app, exec_in_start.
  unfold start_agents.
  destruct (for_names _ _ _ _ _ _) as [l ev]. cbn [fst snd].
  simpl. unfold goto; simpl. done.
Qed.

Lemma exec_returned a sched : ∀ ag fs nid,
  Forall (λ act, act = Tick) sched →
  exec int a sched (State ag fs nid Returned) = (State ag fs nid Returned, []).
Proof.
  induction sched as [|act sched IH]; intros ag fs nid Hs; [done|].
  inversion Hs as [|? ? -> Hs']; subst. simpl. by rewrite IH.
Qed.

Lemma step_plain_run a act s :
  restart a = false → plain_run (ctl s) →
  plain_run (ctl (step int a act s).1) ∧ joins (step int a act s).2 = [].
Proof.
  intros Hr Hp. destruct act; simpl.
  - unfold sup_step.
    destruct s as [ag fs nid c]; simpl in *.
    destruct c as [|oa os p| |e]; simpl.
    + destruct (split ":" (orchestrator a)) as [|x [|y [|z w]]]; simpl;
        rewrite ?Hr; done.
    + destruct p as [| |rest n l|c|rest| | |]; simpl in *; try done.
      * by destruct (int os).
      * destruct rest; simpl; done.
      * by rewrite Hr.
    + done.
    + done.
  - split; [done|]. unfold joins. induction (agents s); simpl; done.
Qed.

Lemma exec_plain_run a sched : ∀ s,
  restart a = false → plain_run (ctl s) → joins (exec int a sched s).2 = [].
Proof.
  induction sched as [|act sched IH]; intros s Hr Hp; [done|].
  simpl. destruct (step_plain_run a act s Hr Hp) as [Hp' Hj].
  destruct (step int a act s) as [t e]. simpl in *.
  specialize (IH t Hr Hp'). destruct (exec int a sched t) as [t' e']. simpl in *.
  unfold joins in *. by rewrite omap_app, Hj, IH.
Qed.

(** Case analysis on where the main thread is. *)
Ltac machine_cases s :=
  let ag := fresh "ag" in let fs := fresh "fs" in
  let nid := fresh "nid" in let c := fresh "c" in
  let p := fresh "p" in
  destruct s as [ag fs nid c]; cbn [ctl agents force_stopped next_oid] in *;
  destruct c as [|? ? p| |?];
  [ | destruct p as [| |[|? ?] ? ?|?|[|? ?]| | |] | | ];
  cbn [step sup_step on_force_exit goto ctl agents force_stopped next_oid
       fst snd] in *.

Lemma split_without_separator sep s :
  occurs sep s = false → split sep s = [s].
Proof.
  induction s as [|c s IH]; simpl; [done|].
  destruct (decide (c = sep)); [done|]. intros H. by rewrite IH.
Qed.

Lemma step_force_stopped a act s :
  force_stopped s = true → force_stopped (step int a act s).1 = true.
Proof.
  intros H. destruct act; [|done].
  machine_cases s; subst; try done.
  - by destruct (split ":" (orchestrator a)) as [|x [|y [|z w]]].
  - by destruct (int _).
Qed.

Lemma exec_force_stopped a sched : ∀ s,
  force_stopped s = true → force_stopped (exec int a sched s).1 = true.
Proof.
  induction sched as [|act sched IH]; intros s H; [done|].
  simpl. pose proof (step_force_stopped a act s H) as H1.
  destruct (step int a act s) as [t e]. specialize (IH t H1).
  by destruct (exec int a sched t).
Qed.

Lemma exec_malformed a sched : ∀ fs c,
  split ":" (orchestrator a) = [orchestrator a] →
  c = Entry ∨ c = Raised ValueError →
  let r := exec int a sched (State [] fs 0 c) in
  agents r.1 = [] ∧ next_oid r.1 = 0%nat
  ∧ Forall (λ e, e = Stdout "FORCE EXIT") r.2
  ∧ (Tick ∈ sched ∨ c = Raised ValueError → ctl r.1 = Raised ValueError).
Proof.
  induction sched as [|act sched IH]; intros fs c Hs Hc; cbv zeta.
  - simpl. repeat split; [constructor|].
    intros [H|H]; [by apply elem_of_nil in H | done].
  - cbn [exec]. destruct act.
    + assert (step int a Tick (State [] fs 0 c)
              = (State [] fs 0 (Raised ValueError), [])) as ->.
      { destruct Hc as [-> | ->]; cbn [step sup_step ctl];
          [by rewrite Hs | done]. }
      specialize (IH fs (Raised ValueError) Hs (or_intror eq_refl)).
      cbv zeta in IH. destruct (exec int a sched _) as [t e].
      simpl in *. destruct IH as (? & ? & ? & Hr). repeat split; auto.
    + cbn [step on_force_exit agents next_oid ctl fmap list_fmap].
      specialize (IH true c Hs Hc).
      cbv zeta in IH. destruct (exec int a sched _) as [t e].
      simpl in *. destruct IH as (? & ? & ? & Hr). repeat split; auto.
      intros [Ht|Ht]; apply Hr; [|by right].
      apply elem_of_cons in Ht as [Ht|Ht]; [done | by left].
Qed.

Lemma omap_stops {A} (f : event → option A) (c : list agent) :
  (∀ h, f (Stop h) = None) → omap f (Stop <$> c) = [].
Proof. intros Hf. induction c as [|h c IH]; simpl; [done|]. by rewrite Hf. Qed.

Lemma only_notices_no_launch ev :
  Forall (λ e, e = Stdout "FORCE EXIT") ev →
  news ev = [] ∧ starts ev = [] ∧ logs ev = [].
Proof.
  induction 1 as [|e ev -> _ IH]; [done|]. unfold news, starts, logs in *.
  simpl. tauto.
Qed.

(** C8: without [--restart], [run_cmd] on a well-formed orchestrator address
    makes exactly one launch call, stores its result in [agents] and has
    returned after the statements of that launch; its events are those of
    the one launch, none of them a join(), and no schedule, with or without
    signals, ever makes it join. *)
Theorem C8_run_without_restart (a : args) (o_addr o_str : string) (n : Z) :
  restart a = false →
  split ":" (orchestrator a) = [o_addr; o_str] →
  int o_str = Some n →
  let r := start_agents (names a) o_addr n (uiport a) (address a) (port a) 0 in
  (∀ k, exec int a (replicate (length (names a) + 4 + k) Tick) initial =
        (State r.1 false (length (names a)) Returned, r.2))
  ∧ joins r.2 = []
  ∧ ∀ sched, joins (exec int a sched initial).2 = [].
Proof.
  intros Hr Hs Hn r. split; [|split].
  - intros k.
    replace (length (names a) + 4 + k)%nat
      with (1 + ((length (names a) + 3) + k))%nat by lia.
    rewrite (replicate_add 1), exec_app.
    cbn [replicate exec step sup_step initial ctl]. rewrite Hs, Hr.
    unfold goto. cbn [agents force_stopped next_oid].
    rewrite (replicate_add (length (names a) + 3) k), exec_app.
    rewrite (exec_launch a o_addr o_str n) by done. rewrite Hr.
    rewrite exec_returned by apply Forall_replicate, eq_refl.
    simpl. by rewrite app_nil_r.
  - subst r. rewrite start_agents_closed. cbn [snd]. unfold joins.
    rewrite omap_app. fold joins. by rewrite joins_launch_events.
  - intros sched. by apply exec_plain_run.
Qed.

(** C9: when the orchestrator address has no ':' the first statement of
    [run_cmd] raises, and whatever the schedule no agent is constructed or
    started, no launch line is logged, no object is allocated and [agents]
    stays empty: the only events are the notices of signals. *)
Theorem C9_malformed_orchestrator_address (a : args) :
  occurs ":" (orchestrator a) = false →
  sup_step int a initial = (State [] false 0 (Raised ValueError), [])
  ∧ ∀ sched,
      let r := exec int a sched initial in
      agents r.1 = [] ∧ next_oid r.1 = 0%nat
      ∧ Forall (λ e, e = Stdout "FORCE EXIT") r.2
      ∧ news r.2 = [] ∧ starts r.2 = [] ∧ logs r.2 = []
      ∧ (Tick ∈ sched → ctl r.1 = Raised ValueError).
Proof.
  intros Ho. apply split_without_separator in Ho. split.
  - cbn [sup_step initial ctl]. by rewrite Ho.
  - intros sched r.
    destruct (exec_malformed a sched false Entry Ho (or_introl eq_refl))
      as (Hag & Hid & Hev & Hc). fold r in Hag, Hid, Hev, Hc.
    destruct (only_notices_no_launch _ Hev) as (? & ? & ?).
    repeat split; auto.
Qed.

(** C6: [force_stopped] is false when the process starts, and once it is
    true no statement of [run_cmd] or [start_agents] and no run of
    [on_force_exit] makes it false again. *)
Theorem C6_force_stopped_monotonic (a : args) (s : state)
    (sched : list action) :
  force_stopped s = true →
  force_stopped initial = false
  ∧ (∀ act, force_stopped (step int a act s).1 = true)
  ∧ force_stopped (exec int a sched s).1 = true.
Proof.
  intros H. split; [done|]. split.
  - intros act. by apply step_force_stopped.
  - by apply exec_force_stopped.
Qed.

(** C5: two runs of [on_force_exit] in succession leave the machine in the
    state one run leaves it in: the flag is true, [agents] and the main
    thread are untouched, so every later execution is the same.  Each run
    prints one FORCE EXIT notice and calls stop() on every agent of
    [agents], and constructs or starts nothing. *)
Theorem C5_force_exit_idempotent (a : args) (s : state) :
  let r1 := on_force_exit s in
  let r2 := on_force_exit r1.1 in
  r2.1 = r1.1
  ∧ force_stopped r2.1 = true
  ∧ agents r2.1 = agents s ∧ ctl r2.1 = ctl s ∧ next_oid r2.1 = next_oid s
  ∧ r1.2 = Stdout "FORCE EXIT" :: (Stop <$> agents s)
  ∧ r2.2 = Stdout "FORCE EXIT" :: (Stop <$> agents s)
  ∧ news (r1.2 ++ r2.2) = [] ∧ starts (r1.2 ++ r2.2) = []
  ∧ ∀ sched, exec int a sched r2.1 = exec int a sched r1.1.
Proof.
  cbv zeta. cbn [on_force_exit fst snd agents force_stopped ctl next_oid].
  repeat split.
  - unfold news. rewrite omap_app. simpl.
    by rewrite (omap_stops is_new).
  - unfold starts. rewrite omap_app. simpl.
    by rewrite (omap_stops is_start).
Qed.

(** *** The restart loop without signals *)

Lemma exec_joins a o_addr o_str c k ag fs nid :
  k = length c →
  exec int a (replicate k Tick)
    (State ag fs nid (Running o_addr o_str (In_join c))) =
  (State ag fs nid (Running o_addr o_str (In_join [])), Join <$> c).
Proof. intros ->. apply exec_in_join. Qed.

(** One pass of the loop, from the guard back to the guard. *)
Lemma exec_cycle a o_addr o_str n ag nid :
  restart a = true → int o_str = Some n →
  exec int a (replicate (2 * length (names a) + 8) Tick)
    (State ag false nid (Running o_addr o_str At_while)) =
  (State (start_agents (names a) o_addr n (uiport a) (address a) (port a) nid).1
     false (nid + length (names a)) (Running o_addr o_str At_while),
   cycle_events a o_addr n nid).
Proof.
  intros Hr Hn.
  replace (2 * length (names a) + 8)%nat
    with (1 + ((length (names a) + 3) + (length (names a) + 4)))%nat by lia.
  rewrite (replicate_add 1), exec_app.
  cbn [replicate exec step sup_step ctl force_stopped].
  unfold goto. cbn [agents force_stopped next_oid].
  rewrite (replicate_add (length (names a) + 3)), exec_app.
  rewrite (exec_launch a o_addr o_str n) by done. rewrite Hr.
  rewrite (replicate_add (length (names a)) 4), exec_app.
  rewrite exec_joins.
  2: { rewrite start_agents_closed. cbn [fst]. by rewrite length_cohort. }
  unfold cycle_events. simpl. unfold goto; simpl. done.
Qed.

Lemma exec_cycles a o_addr o_str n k : ∀ ag nid,
  restart a = true → int o_str = Some n →
  ∃ ag',
    exec int a (replicate (k * (2 * length (names a) + 8)) Tick)
      (State ag false nid (Running o_addr o_str At_while)) =
    (State ag' false (nid + k * length (names a))
       (Running o_addr o_str At_while),
     cycles a o_addr n nid k).
Proof.
  induction k as [|k IH]; intros ag nid Hr Hn.
  - exists ag. simpl. by rewrite Nat.add_0_r.
  - replace (S k * (2 * length (names a) + 8))%nat
      with ((2 * length (names a) + 8) + k * (2 * length (names a) + 8))%nat
      by lia.
    rewrite replicate_add, exec_app, (exec_cycle a o_addr o_str n) by done.
    destruct (IH (start_agents (names a) o_addr n (uiport a) (address a)
                    (port a) nid).1 (nid + length (names a))%nat Hr Hn)
      as [ag' ->].
    exists ag'. cbn [cycles]. do 2 f_equal. lia.
Qed.

Lemma exec_ticks_prefix a t t' s :
  (t ≤ t')%nat →
  (exec int a (replicate t Tick) s).2
    `prefix_of` (exec int a (replicate t' Tick) s).2.
Proof.
  intros Ht. replace t' with (t + (t' - t))%nat by lia.
  rewrite replicate_add, exec_app.
  destruct (exec int a (replicate t Tick) s) as [t1 e1].
  destruct (exec int a (replicate (t' - t) Tick) t1) as [t2 e2].
  by exists e2.
Qed.

(** C3: with [--restart] and no signal, the events of the run are those of
    successive passes of the loop, each pass being one launch, then the
    join() of every handle of that launch in cohort order, then the two log
    lines and sleep(10): a launch is preceded by every join() of the previous
    cohort and by the sleep.  Every launch is made from the same names and
    the same base ports, so all cohorts have the same endpoints. *)
Theorem C3_restart_cycle (a : args) (o_addr o_str : string) (n : Z) (k : nat) :
  restart a = true →
  split ":" (orchestrator a) = [o_addr; o_str] →
  int o_str = Some n →
  (∃ ag,
     exec int a (replicate (1 + k * (2 * length (names a) + 8)) Tick) initial =
     (State ag false (k * length (names a)) (Running o_addr o_str At_while),
      cycles a o_addr n 0 k))
  ∧ (∀ id j,
       cycles a o_addr n id (S j) =
       (start_agents (names a) o_addr n (uiport a) (address a) (port a) id).2
       ++ (Join <$> (start_agents (names a) o_addr n (uiport a) (address a)
                       (port a) id).1)
       ++ [Log All_agents_have_stopped; Log Wait_before_restarting; Sleep 10]
       ++ cycles a o_addr n (id + length (names a)) j)
  ∧ (∀ id id',
       endpoint <$> (start_agents (names a) o_addr n (uiport a) (address a)
                       (port a) id).1 =
       endpoint <$> (start_agents (names a) o_addr n (uiport a) (address a)
                       (port a) id').1)
  ∧ (∀ t, ∃ j,
       (exec int a (replicate t Tick) initial).2
         `prefix_of` cycles a o_addr n 0 j).
Proof.
  intros Hr Hs Hn.
  assert (∀ j, ∃ ag,
    exec int a (replicate (1 + j * (2 * length (names a) + 8)) Tick) initial =
    (State ag false (j * length (names a)) (Running o_addr o_str At_while),
     cycles a o_addr n 0 j)) as Hrun.
  { intros j. rewrite (replicate_add 1), exec_app.
    cbn [replicate exec step sup_step initial ctl]. rewrite Hs, Hr.
    unfold goto. cbn [agents force_stopped next_oid initial].
    destruct (exec_cycles a o_addr o_str n j [] 0%nat Hr Hn) as [ag ->].
    by exists ag. }
  split; [apply Hrun|]. split; [|split].
  - intros id j. cbn [cycles]. unfold cycle_events.
    by rewrite <- !app_assoc.
  - intros id id'. rewrite !start_agents_closed. apply cohort_endpoints.
  - intros t. exists t. destruct (Hrun t) as [ag Hag].
    pose proof (exec_ticks_prefix a t
                  (1 + t * (2 * length (names a) + 8)) initial) as Hp.
    rewrite Hag in Hp. apply Hp. lia.
Qed.

(** *** Signals *)

Lemma starts_stops c : starts (Stop <$> c) = [].
Proof. by apply omap_stops. Qed.

Lemma step_after_force_stop a act s :
  restart a = true → force_stopped s = true →
  (length (starts (step int a act s).2) + pending a (ctl (step int a act s).1)
   ≤ pending a (ctl s))%nat.
Proof.
  intros Hr Hf. destruct act.
  - machine_cases s; subst.
    1: destruct (split ":" (orchestrator a)) as [|x [|y [|z w]]].
    all: try match goal with |- context [int ?x] => destruct (int x) end.
    all: rewrite ?Hr; simpl; lia.
  - cbn [step on_force_exit fst snd]. unfold starts at 1. simpl.
    fold (starts (Stop <$> agents s)). rewrite starts_stops. simpl. lia.
Qed.

Lemma exec_after_force_stop a sched : ∀ s,
  restart a = true → force_stopped s = true →
  (length (starts (exec int a sched s).2) ≤ pending a (ctl s))%nat.
Proof.
  induction sched as [|act sched IH]; intros s Hr Hf; simpl; [lia|].
  pose proof (step_after_force_stop a act s Hr Hf) as Hstep.
  pose proof (step_force_stopped a act s Hf) as Hf'.
  destruct (step int a act s) as [t e]. cbn [fst snd] in *.
  specialize (IH t Hr Hf'). destruct (exec int a sched t) as [t' e'].
  cbn [fst snd] in *. unfold starts in *. rewrite omap_app, length_app. lia.
Qed.

(** C2 (as amended): [on_force_exit] calls stop() on every handle that
    [agents] holds at that instant and sets the flag.  From then on the
    guard of the restart loop never passes again: the agents started
    afterwards are at most those of a launch that had passed the guard
    before the signal and was not finished; when the signal arrives at any
    other point of the loop no agent is started any more, whatever the
    schedule. *)
Theorem C2_no_launch_after_force_stop (a : args) (s : state)
    (sched : list action) :
  restart a = true →
  (on_force_exit s).2 = Stdout "FORCE EXIT" :: (Stop <$> agents s)
  ∧ force_stopped (on_force_exit s).1 = true
  ∧ (length (starts (exec int a sched (on_force_exit s).1).2)
     ≤ pending a (ctl s))%nat
  ∧ (pending a (ctl s) = 0%nat →
     starts (exec int a sched (on_force_exit s).1).2 = []).
Proof.
  intros Hr.
  pose proof (exec_after_force_stop a sched (on_force_exit s).1 Hr eq_refl)
    as Hle.
  cbn [on_force_exit fst snd ctl] in *.
  repeat split; [done|].
  intros H0. rewrite H0 in Hle.
  destruct (starts _); [done | simpl in Hle; lia].
Qed.

(** *** Handles are distinct objects *)

Lemma distinct_objects_nil nid : distinct_objects nid [].
Proof. split; constructor. Qed.

Lemma distinct_objects_mono nid nid' c : distinct_objects nid c → (nid ≤ nid')%nat → distinct_objects nid' c.
Proof.
  intros [Hd Hlt] Hle. split; [done|].
  eapply Forall_impl; [exact Hlt|]. simpl. intros; lia.
Qed.

Lemma distinct_objects_snoc nid c h : distinct_objects nid c → oid h = nid → distinct_objects (S nid) (c ++ [h]).
Proof.
  intros [Hd Hlt] Hh. split.
  - rewrite fmap_app. apply NoDup_app. split; [done|]. split.
    + intros x Hx Hx'. apply list_elem_of_fmap in Hx as (h' & -> & Hin).
      apply list_elem_of_singleton in Hx'.
      rewrite Forall_forall in Hlt. specialize (Hlt h' Hin). simpl in *. lia.
    + simpl. apply NoDup_singleton.
  - apply Forall_app. split.
    + eapply Forall_impl; [exact Hlt|]. simpl. intros; lia.
    + constructor; [lia | constructor].
Qed.

Lemma distinct_objects_NoDup nid c : distinct_objects nid c → NoDup c.
Proof. intros [Hd _]. by apply NoDup_fmap_1 in Hd. Qed.

Lemma inv_initial : inv initial.
Proof. split; [apply distinct_objects_nil | done]. Qed.

Lemma inv_step a act s : inv s → inv (step int a act s).1.
Proof.
  intros [Hag Hc]. destruct act; [|done].
  machine_cases s; subst.
  1: destruct (split ":" (orchestrator a)) as [|x [|y [|z w]]].
  all: try match goal with |- context [int ?x] => destruct (int x) end.
  all: repeat match goal with
              | |- context [if ?b then _ else _] => destruct b
              end.
  all: unfold inv; simpl; try done.
  all: try (split; [done | apply distinct_objects_nil]).
  split.
  - eapply distinct_objects_mono; [exact Hag | lia].
  - by apply distinct_objects_snoc.
Qed.

Lemma inv_exec a sched : ∀ s, inv s → inv (exec int a sched s).1.
Proof.
  induction sched as [|act sched IH]; intros s Hs; [done|].
  simpl. pose proof (inv_step a act s Hs) as H1.
  destruct (step int a act s) as [t e]. specialize (IH t H1).
  by destruct (exec int a sched t).
Qed.

Lemma stops_of_app h e1 e2 :
  stops_of h (e1 ++ e2) = (stops_of h e1 + stops_of h e2)%nat.
Proof. unfold stops_of. by rewrite filter_app, length_app. Qed.

Lemma stops_of_absent h c : h ∉ c → stops_of h (Stop <$> c) = 0%nat.
Proof.
  unfold stops_of. induction c as [|h' c IH]; intros Hn; [done|].
  apply not_elem_of_cons in Hn as [Hne Hn]. cbn [fmap list_fmap].
  rewrite filter_cons_False; [by apply IH | congruence].
Qed.

Lemma stops_of_cohort h c :
  NoDup c → h ∈ c → stops_of h (Stop <$> c) = 1%nat.
Proof.
  induction 1 as [|h' c Hnin Hd IH]; intros Hin.
  - by apply elem_of_nil in Hin.
  - cbn [fmap list_fmap]. apply elem_of_cons in Hin as [-> | Hin].
    + change (Stop h' :: (Stop <$> c)) with ([Stop h'] ++ (Stop <$> c)).
      rewrite stops_of_app, stops_of_absent by done.
      unfold stops_of. by rewrite filter_cons_True.
    + change (Stop h' :: (Stop <$> c)) with ([Stop h'] ++ (Stop <$> c)).
      rewrite stops_of_app, IH by done.
      unfold stops_of. rewrite filter_cons_False; [done|].
      intros [= ->]. done.
Qed.

Lemma stops_of_force_exit h s :
  NoDup (agents s) → h ∈ agents s → stops_of h (on_force_exit s).2 = 1%nat.
Proof.
  intros Hd Hin. cbn [on_force_exit snd].
  change (Stdout "FORCE EXIT" :: (Stop <$> agents s))
    with ([Stdout "FORCE EXIT"] ++ (Stop <$> agents s)).
  rewrite stops_of_app, stops_of_cohort by done.
  unfold stops_of. by rewrite filter_cons_False.
Qed.

Lemma stops_of_signals a h k : ∀ s,
  NoDup (agents s) → h ∈ agents s →
  stops_of h (exec int a (replicate k Signal) s).2 = k.
Proof.
  induction k as [|k IH]; intros s Hd Hin; [done|].
  cbn [replicate exec step].
  pose proof (stops_of_force_exit h s Hd Hin) as H1.
  specialize (IH (on_force_exit s).1 Hd Hin).
  destruct (on_force_exit s) as [t e] eqn:E. cbn [fst snd] in *.
  destruct (exec int a (replicate k Signal) t) as [t' e'].
  cbn [fst snd] in *. rewrite stops_of_app. lia.
Qed.

(** C4 (as amended): in every state the machine can reach, one run of
    [on_force_exit] calls stop() exactly once on each handle of [agents];
    the handler has no memory of earlier runs, so k runs in succession call
    stop() exactly k times on each of these handles. *)
Theorem C4_one_stop_per_invocation (a : args) (sched : list action)
    (h : agent) (k : nat) :
  h ∈ agents (exec int a sched initial).1 →
  stops_of h (on_force_exit (exec int a sched initial).1).2 = 1%nat
  ∧ stops_of h
      (exec int a (replicate k Signal) (exec int a sched initial).1).2 = k.
Proof.
  intros Hin.
  pose proof (inv_exec a sched initial inv_initial) as [Hdist _].
  apply distinct_objects_NoDup in Hdist.
  split; [by apply stops_of_force_exit | by apply stops_of_signals].
Qed.

End Supervisor_properties.

(** ** Concrete runs *)

Example scenario_three_agents :
  start_agents ["a1"; "a2"; "a3"] "127.0.0.1" 9000 None None 9001 0 =
  ([OrchestratedAgent 0 "a1" (None, 9001) ("127.0.0.1", 9000) None;
    OrchestratedAgent 1 "a2" (None, 9002) ("127.0.0.1", 9000) None;
    OrchestratedAgent 2 "a3" (None, 9003) ("127.0.0.1", 9000) None],
   [Log (Starting_without_ui "a1" 9001);
    New (OrchestratedAgent 0 "a1" (None, 9001) ("127.0.0.1", 9000) None);
    Start (OrchestratedAgent 0 "a1" (None, 9001) ("127.0.0.1", 9000) None);
    Log (Starting_without_ui "a2" 9002);
    New (OrchestratedAgent 1 "a2" (None, 9002) ("127.0.0.1", 9000) None);
    Start (OrchestratedAgent 1 "a2" (None, 9002) ("127.0.0.1", 9000) None);
    Log (Starting_without_ui "a3" 9003);
    New (OrchestratedAgent 2 "a3" (None, 9003) ("127.0.0.1", 9000) None);
    Start (OrchestratedAgent 2 "a3" (None, 9003) ("127.0.0.1", 9000) None);
    Log (All_agents_started 3)]).
Proof. reflexivity. Qed.

Example scenario_ui_ports :
  (λ h, (message_port h, ui_port h)) <$>
    (start_agents ["a1"; "a2"] "127.0.0.1" 9000 (Some 10001) None 9001 0).1 =
  [(9001, Some 10001); (9002, Some 10002)].
Proof. reflexivity. Qed.

(** C2, as stated, fails: one full pass of the loop, the guard passes a
    second time, the signal arrives before the call of [start_agents].  The
    handler stops the agent of the first cohort, which has already
    terminated, and the loop then launches a second cohort, whose agent is
    never stopped. *)
Lemma C2_launch_after_force_stop_counterexample :
  let h0 := OrchestratedAgent 0 "a1" (None, 9001) ("127.0.0.1", 9000) None in
  let h1 := OrchestratedAgent 1 "a1" (None, 9001) ("127.0.0.1", 9000) None in
  let s := (exec decimal one_agent_restart (replicate 12 Tick) initial).1 in
  let r := exec decimal one_agent_restart (replicate 4 Tick)
             (on_force_exit s).1 in
  s = State [h0] false 1 (Running "127.0.0.1" "9000" At_call)
  ∧ on_force_exit s =
      (State [h0] true 1 (Running "127.0.0.1" "9000" At_call),
       [Stdout "FORCE EXIT"; Stop h0])
  ∧ r = (State [h1] true 2 (Running "127.0.0.1" "9000" (In_join [h1])),
         [Log (Starting_without_ui "a1" 9001); New h1; Start h1;
          Log (All_agents_started 1)])
  ∧ starts r.2 ≠ [].
Proof. cbv zeta. split; [|split; [|split]]; [reflexivity..|]. by vm_compute. Qed.

Lemma C2_no_launch_after_force_stop_witness :
  restart one_agent_restart = true
  ∧ starts (exec decimal one_agent_restart (replicate 20 Tick)
              (on_force_exit
                 (exec decimal one_agent_restart (replicate 6 Tick)
                    initial).1).1).2 = [].
Proof.
  split; [reflexivity|].
  apply (C2_no_launch_after_force_stop decimal one_agent_restart
           (exec decimal one_agent_restart (replicate 6 Tick) initial).1
           (replicate 20 Tick)); reflexivity.
Defined.

Lemma C3_restart_cycle_witness :
  restart two_agents_restart = true
  ∧ split ":" (orchestrator two_agents_restart) = ["127.0.0.1"; "9000"]
  ∧ decimal "9000" = Some 9000
  ∧ ∃ ag,
      exec decimal two_agents_restart
        (replicate (1 + 2 * (2 * length (names two_agents_restart) + 8)) Tick)
        initial =
      (State ag false (2 * length (names two_agents_restart))
         (Running "127.0.0.1" "9000" At_while),
       cycles two_agents_restart "127.0.0.1" 9000 0 2).
Proof.
  split; [reflexivity|]. split; [reflexivity|]. split; [reflexivity|].
  exact (proj1 (C3_restart_cycle decimal two_agents_restart "127.0.0.1" "9000"
                  9000 2 eq_refl eq_refl eq_refl)).
Defined.

(** C4, as stated, fails: two signals while the agent is in [agents] give it
    two stop() calls. *)
Lemma C4_stop_twice_counterexample :
  let h0 := OrchestratedAgent 0 "a1" (None, 9001) ("127.0.0.1", 9000) None in
  let s := (exec decimal one_agent_restart (replicate 6 Tick) initial).1 in
  agents s = [h0]
  ∧ (exec decimal one_agent_restart [Signal; Signal] s).2 =
      [Stdout "FORCE EXIT"; Stop h0; Stdout "FORCE EXIT"; Stop h0]
  ∧ stops_of h0 (exec decimal one_agent_restart [Signal; Signal] s).2 = 2%nat
  ∧ ¬ (stops_of h0 (exec decimal one_agent_restart [Signal; Signal] s).2
       ≤ 1)%nat.
Proof.
  cbv zeta. split; [|split; [|split]]; [reflexivity..|].
  vm_compute. lia.
Qed.

Lemma C4_one_stop_per_invocation_witness :
  OrchestratedAgent 0 "a1" (None, 9001) ("127.0.0.1", 9000) None
    ∈ agents (exec decimal one_agent_restart (replicate 6 Tick) initial).1
  ∧ stops_of (OrchestratedAgent 0 "a1" (None, 9001) ("127.0.0.1", 9000) None)
      (exec decimal one_agent_restart (replicate 3 Signal)
         (exec decimal one_agent_restart (replicate 6 Tick) initial).1).2
    = 3%nat.
Proof.
  assert (OrchestratedAgent 0 "a1" (None, 9001) ("127.0.0.1", 9000) None
            ∈ agents (exec decimal one_agent_restart (replicate 6 Tick)
                        initial).1) as Hin.
  { vm_compute. apply list_elem_of_here. }
  split; [exact Hin|].
  exact (proj2 (C4_one_stop_per_invocation decimal one_agent_restart
                  (replicate 6 Tick) _ 3 Hin)).
Defined.

Lemma C6_force_stopped_monotonic_witness :
  force_stopped (on_force_exit initial).1 = true
  ∧ force_stopped
      (exec decimal two_agents_restart [Tick; Signal; Tick; Tick]
         (on_force_exit initial).1).1 = true.
Proof.
  split; [reflexivity|].
  apply (C6_force_stopped_monotonic decimal two_agents_restart
           (on_force_exit initial).1 [Tick; Signal; Tick; Tick]).
  reflexivity.
Defined.

Lemma C8_run_without_restart_witness :
  restart three_agents = false
  ∧ split ":" (orchestrator three_agents) = ["127.0.0.1"; "9000"]
  ∧ decimal "9000" = Some 9000
  ∧ ∀ k,
      exec decimal three_agents
        (replicate (length (names three_agents) + 4 + k) Tick) initial =
      (State
         (start_agents (names three_agents) "127.0.0.1" 9000
            (uiport three_agents) (address three_agents) (port three_agents)
            0).1
         false (length (names three_agents)) Returned,
       (start_agents (names three_agents) "127.0.0.1" 9000
          (uiport three_agents) (address three_agents) (port three_agents)
          0).2).
Proof.
  split; [reflexivity|]. split; [reflexivity|]. split; [reflexivity|].
  exact (proj1 (C8_run_without_restart decimal three_agents "127.0.0.1" "9000"
                  9000 eq_refl eq_refl eq_refl)).
Defined.

Lemma C9_malformed_orchestrator_address_witness :
  occurs ":" (orchestrator no_separator) = false
  ∧ sup_step decimal no_separator initial =
      (State [] false 0 (Raised ValueError), []).
Proof.
  split; [reflexivity|].
  exact (proj1 (C9_malformed_orchestrator_address decimal no_separator
                  eq_refl)).
Defined.

Example scenario_no_restart :
  exec decimal three_agents (replicate 7 Tick) initial =
  (State
     [OrchestratedAgent 0 "a1" (None, 9001) ("127.0.0.1", 9000) None;
      OrchestratedAgent 1 "a2" (None, 9002) ("127.0.0.1", 9000) None;
      OrchestratedAgent 2 "a3" (None, 9003) ("127.0.0.1", 9000) None]
     false 3 Returned,
   (start_agents ["a1"; "a2"; "a3"] "127.0.0.1" 9000 None None 9001 0).2).
Proof. reflexivity. Qed.

Example scenario_restart_same_endpoints :
  let r := exec decimal two_agents_restart (replicate 25 Tick) initial in
  (λ h, (message_port h, ui_port h)) <$> starts r.2 =
  [(9001, Some 10001); (9002, Some 10002);
   (9001, Some 10001); (9002, Some 10002)]
  ∧ (∃ pre post, r.2 = pre ++ [Sleep 10] ++ post
       ∧ length (joins pre) = 2%nat ∧ length (starts post) = 2%nat).
Proof.
  intros r. split; [reflexivity|].
  exists (take 11 r.2), (drop 12 r.2). by vm_compute.
Qed.

(** * Further properties *)

(** ** The launcher *)

Section Launcher_further.

Variables (o_addr : string) (o_port : Z) (a_addr : option string).

Lemma bump_ui_port_at u k :
  0 ≤ k → bump (Some (ui_port_at u k)) = Some (ui_port_at u (k + 1)).
Proof.
  intros Hk. unfold bump, truthy, ui_port_at.
  destruct (Z.ltb_spec 0 u).
  - destruct (Z.eqb_spec (u + k) 0); simpl; [lia | f_equal; lia].
  - destruct (Z.eqb_spec (Z.min (u + k) 0) 0); simpl; f_equal; lia.
Qed.

Lemma cohort_ui_saturating nms : ∀ id p u k,
  0 ≤ k →
  ui_port <$> cohort o_addr o_port a_addr nms id p (Some (ui_port_at u k)) =
  (λ i, Some (ui_port_at u i)) <$> seqZ k (Z.of_nat (length nms)).
Proof.
  induction nms as [|a rest IH]; intros id p u k Hk; [done|].
  cbn [cohort length]. rewrite (seqZ_cons k) by lia.
  replace (Z.pred (Z.of_nat (S (length rest))))
    with (Z.of_nat (length rest)) by lia.
  replace (Z.succ k) with (k + 1) by lia.
  rewrite !fmap_cons, bump_ui_port_at by done.
  by rewrite IH by lia.
Qed.

(** X1: the UI ports of a launch, for every base UI port: the agent at
    position i is built with u+i when u is positive, and with min(u+i, 0)
    otherwise, so that a base port that is not positive counts up to 0 and
    stays there. *)
Theorem ui_ports_saturate_at_zero (nms : list string) (p u : Z) (id : nat) :
  ui_port <$> (start_agents nms o_addr o_port (Some u) a_addr p id).1 =
  (λ i, Some (ui_port_at u i)) <$> seqZ 0 (Z.of_nat (length nms)).
Proof.
  rewrite start_agents_closed. cbn [fst].
  rewrite <- (cohort_ui_saturating nms id p u 0) by lia.
  do 3 f_equal. unfold ui_port_at. destruct (Z.ltb_spec 0 u); lia.
Qed.




End Launcher_further.

(** ** Unpacking the orchestrator address *)

Lemma split_not_nil sep s : split sep s ≠ [].
Proof.
  destruct s as [|c s]; simpl; [done|].
  destruct (decide (c = sep)); [done|]. by destruct (split sep s).
Qed.

Lemma length_split sep s : length (split sep s) = S (count_sep sep s).
Proof.
  induction s as [|c s IH]; simpl; [done|].
  destruct (decide (c = sep)); simpl; [by rewrite IH|].
  pose proof (split_not_nil sep s). by destruct (split sep s).
Qed.

Lemma join_cons_char sep c w ws :
  join sep (String c w :: ws) = String c (join sep (w :: ws)).
Proof. by destruct ws. Qed.

Lemma join_split sep s : join sep (split sep s) = s.
Proof.
  induction s as [|c s IH]; [done|]. cbn [split].
  destruct (decide (c = sep)) as [->|Hne].
  - pose proof (split_not_nil sep s).
    destruct (split sep s) as [|w ws]; [done|].
    cbn [join]. simpl. by rewrite <- IH.
  - pose proof (split_not_nil sep s).
    destruct (split sep s) as [|w ws]; [done|].
    by rewrite join_cons_char, IH.
Qed.

Lemma split_parts_without_separator sep s :
  Forall (λ w, occurs sep w = false) (split sep s).
Proof.
  induction s as [|c s IH]; cbn [split]; [by repeat constructor|].
  destruct (decide (c = sep)) as [->|Hne]; [by constructor|].
  destruct (split sep s) as [|w ws]; inversion IH; subst.
  - repeat constructor. simpl. by destruct (decide (c = sep)).
  - constructor; [|done]. simpl. by destruct (decide (c = sep)).
Qed.

Lemma split_two_iff_one_separator sep s :
  (∃ x y, split sep s = [x; y]) ↔ count_sep sep s = 1%nat.
Proof.
  pose proof (length_split sep s) as Hl. split.
  - intros (x & y & Hs). rewrite Hs in Hl. simpl in Hl. lia.
  - intros Hc. rewrite Hc in Hl.
    destruct (split sep s) as [|x [|y [|z w]]]; simpl in Hl; try lia.
    by exists x, y.
Qed.

Section Supervisor_further.

Variable int : string → option Z.

Lemma exec_unpack_fails a sched : ∀ fs c,
  count_sep ":" (orchestrator a) ≠ 1%nat →
  c = Entry ∨ c = Raised ValueError →
  let r := exec int a sched (State [] fs 0 c) in
  agents r.1 = [] ∧ next_oid r.1 = 0%nat
  ∧ Forall (λ e, e = Stdout "FORCE EXIT") r.2
  ∧ (Tick ∈ sched ∨ c = Raised ValueError → ctl r.1 = Raised ValueError).
Proof.
  induction sched as [|act sched IH]; intros fs c Hn Hc; cbv zeta.
  - simpl. repeat split; [constructor|].
    intros [H|H]; [by apply elem_of_nil in H | done].
  - cbn [exec]. destruct act.
    + assert (step int a Tick (State [] fs 0 c)
              = (State [] fs 0 (Raised ValueError), [])) as ->.
      { destruct Hc as [-> | ->]; cbn [step sup_step ctl]; [|done].
        destruct (split ":" (orchestrator a)) as [|x [|y [|z w]]] eqn:Hs;
          try done.
        exfalso. apply Hn, split_two_iff_one_separator. eauto. }
      specialize (IH fs (Raised ValueError) Hn (or_intror eq_refl)).
      cbv zeta in IH. destruct (exec int a sched _) as [t e].
      simpl in *. destruct IH as (? & ? & ? & Hr). repeat split; auto.
    + cbn [step on_force_exit agents next_oid ctl fmap list_fmap].
      specialize (IH true c Hn Hc).
      cbv zeta in IH. destruct (exec int a sched _) as [t e].
      simpl in *. destruct IH as (? & ? & ? & Hr). repeat split; auto.
      intros [Ht|Ht]; apply Hr; [|by right].
      apply elem_of_cons in Ht as [Ht|Ht]; [done | by left].
Qed.

(** X3: an orchestrator address that does not contain exactly one ':' (none,
    or several as in an IPv6 address) makes the first statement of [run_cmd]
    raise ValueError; whatever the schedule nothing is constructed, started
    or logged and [agents] stays empty. *)
Theorem orchestrator_needs_one_separator (a : args) (sched : list action) :
  count_sep ":" (orchestrator a) ≠ 1%nat →
  sup_step int a initial = (State [] false 0 (Raised ValueError), [])
  ∧ agents (exec int a sched initial).1 = []
  ∧ news (exec int a sched initial).2 = []
  ∧ starts (exec int a sched initial).2 = []
  ∧ logs (exec int a sched initial).2 = []
  ∧ (Tick ∈ sched → ctl (exec int a sched initial).1 = Raised ValueError).
Proof.
  intros Hn.
  destruct (exec_unpack_fails a sched false Entry Hn (or_introl eq_refl))
    as (Hag & _ & Hev & Hc).
  destruct (only_notices_no_launch _ Hev) as (? & ? & ?).
  split; [|repeat split; auto].
  cbn [sup_step initial ctl].
  destruct (split ":" (orchestrator a)) as [|x [|y [|z w]]] eqn:Hs; try done.
  exfalso. apply Hn, split_two_iff_one_separator. eauto.
Qed.

(** X4: an orchestrator address with exactly one ':' is unpacked into the
    text before and the text after the ':', neither of which contains a
    ':', and [run_cmd] goes on to the loop guard (with [--restart]) or to
    the launch. *)
Theorem orchestrator_unpacked (a : args) :
  count_sep ":" (orchestrator a) = 1%nat →
  ∃ o_addr o_str,
    sup_step int a initial =
      (State [] false 0
         (Running o_addr o_str (if restart a then At_while else At_call)), [])
    ∧ orchestrator a = String.append o_addr (String ":" o_str)
    ∧ occurs ":" o_addr = false ∧ occurs ":" o_str = false.
Proof.
  intros Hc. apply split_two_iff_one_separator in Hc as (x & y & Hs).
  exists x, y. split; [|split].
  - cbn [sup_step initial ctl]. by rewrite Hs.
  - rewrite <- (join_split ":" (orchestrator a)) at 1. by rewrite Hs.
  - pose proof (split_parts_without_separator ":" (orchestrator a)) as Hf.
    rewrite Hs in Hf. inversion Hf as [|? ? ? Hf']; subst.
    by inversion Hf'; subst.
Qed.

End Supervisor_further.

(** Case analysis on the control point of a state. *)
Ltac control_cases s :=
  let ag := fresh "ag" in let fs := fresh "fs" in
  let nid := fresh "nid" in let c := fresh "c" in
  let p := fresh "p" in
  destruct s as [ag fs nid c]; cbn [ctl agents force_stopped next_oid] in *;
  destruct c as [|? ? p| |?];
  [ | destruct p as [| |[|? ?] ? ?|?|[|? ?]| | |] | | ];
  cbn [step sup_step on_force_exit goto ctl agents force_stopped next_oid
       fst snd] in *.

Section Supervisor_runs.

Variable int : string → option Z.

Lemma exec_cons_state a act sched s :
  (exec int a (act :: sched) s).1 =
  (exec int a sched (step int a act s).1).1.
Proof.
  cbn [exec]. destruct (step int a act s) as [t e]. cbn [fst snd].
  by destruct (exec int a sched t).
Qed.

Lemma exec_cons_events a act sched s :
  (exec int a (act :: sched) s).2 =
  (step int a act s).2 ++ (exec int a sched (step int a act s).1).2.
Proof.
  cbn [exec]. destruct (step int a act s) as [t e]. cbn [fst snd].
  by destruct (exec int a sched t).
Qed.



(** *** A port that is not an integer *)



(** *** Leaving the loop, and staying in it *)

Lemma remaining_zero a c : remaining a c = 0%nat → finished c = true.
Proof.
  destruct c as [|oa os p| |e]; [| |done|done]; simpl.
  - destruct (restart a); lia.
  - destruct p; unfold after_assign; destruct (restart a); simpl; lia.
Qed.

Lemma remaining_step a act s :
  force_stopped s = true →
  (remaining a (ctl (step int a act s).1)
   ≤ remaining a (ctl s) - (if act is Tick then 1 else 0))%nat.
Proof.
  intros Hf. destruct act; [|simpl; lia].
  control_cases s; subst.
  1: destruct (split ":" (orchestrator a)) as [|x [|y [|z w]]].
  all: try match goal with |- context [int ?x] => destruct (int x) end.
  all: destruct (restart a) eqn:Hr; simpl; unfold after_assign;
    rewrite ?Hr; simpl; rewrite ?length_app; simpl; lia.
Qed.

Lemma remaining_exec a sched : ∀ s,
  force_stopped s = true →
  (remaining a (ctl (exec int a sched s).1)
   ≤ remaining a (ctl s) - ticks sched)%nat.
Proof.
  induction sched as [|act sched IH]; intros s Hf; [simpl; lia|].
  rewrite exec_cons_state.
  pose proof (remaining_step a act s Hf) as H1.
  pose proof (step_force_stopped int a act s Hf) as Hf'.
  specialize (IH _ Hf'). destruct act; simpl in *; lia.
Qed.

(** X6: once [force_stopped] is true, [run_cmd] leaves after at most
    [remaining] statements of the main thread, a join() counting for one
    statement when it returns: whatever the state and however many signals
    are interleaved, it has returned or raised. *)
Theorem force_stop_ends_run (a : args) (s : state) (sched : list action) :
  force_stopped s = true →
  (remaining a (ctl s) ≤ ticks sched)%nat →
  finished (ctl (exec int a sched s).1) = true.
Proof.
  intros Hf Hle. apply (remaining_zero a).
  pose proof (remaining_exec a sched s Hf). lia.
Qed.

Lemma step_stays_in_loop a o_addr o_str n s :
  restart a = true →
  split ":" (orchestrator a) = [o_addr; o_str] →
  int o_str = Some n →
  force_stopped s = false →
  (ctl s = Entry ∨ ∃ p, ctl s = Running o_addr o_str p) →
  force_stopped (sup_step int a s).1 = false
  ∧ ∃ p, ctl (sup_step int a s).1 = Running o_addr o_str p.
Proof.
  intros Hr Hs Hn Hf Hc. destruct s as [ag fs nid c]. simpl in Hf, Hc.
  subst fs. destruct Hc as [-> | [p ->]];
    cbn [sup_step ctl goto agents force_stopped next_oid].
  - rewrite Hs, Hr. simpl. eauto.
  - destruct p as [| |[|x rest] m l|c|[|h rest]| | |]; rewrite ?Hn, ?Hr;
      simpl; eauto.
Qed.

(** X7: with [--restart], a well-formed orchestrator address and no signal,
    [run_cmd] never returns and never raises: after any number of
    statements the main thread is still inside the function and
    [force_stopped] is still false. *)
Theorem restart_loop_never_returns (a : args) (o_addr o_str : string) (n : Z)
    (t : nat) :
  restart a = true →
  split ":" (orchestrator a) = [o_addr; o_str] →
  int o_str = Some n →
  finished (ctl (exec int a (replicate t Tick) initial).1) = false
  ∧ force_stopped (exec int a (replicate t Tick) initial).1 = false.
Proof.
  intros Hr Hs Hn.
  assert (∀ s, force_stopped s = false →
               (ctl s = Entry ∨ ∃ p, ctl s = Running o_addr o_str p) →
               force_stopped (exec int a (replicate t Tick) s).1 = false
               ∧ (ctl (exec int a (replicate t Tick) s).1 = Entry
                  ∨ ∃ p, ctl (exec int a (replicate t Tick) s).1
                         = Running o_addr o_str p)) as Hinv.
  { induction t as [|t IH]; intros s Hf Hc; [done|].
    cbn [replicate]. rewrite exec_cons_state. cbn [step].
    destruct (step_stays_in_loop a o_addr o_str n s Hr Hs Hn Hf Hc)
      as [Hf' Hc'].
    apply IH; [done | by right]. }
  destruct (Hinv initial eq_refl (or_introl eq_refl)) as [Hf [-> | [p ->]]];
    done.
Qed.

End Supervisor_runs.

Section Supervisor_invariants.

Variable int : string → option Z.

(** *** Without [--restart] the flag is never read *)

Lemma main_events_app e1 e2 :
  main_events (e1 ++ e2) = main_events e1 ++ main_events e2.
Proof.
  induction e1 as [|e e1 IH]; [done|]. simpl.
  destruct (from_main e); simpl; by rewrite IH.
Qed.

Lemma main_events_stops c : main_events (Stop <$> c) = [].
Proof. induction c as [|h c IH]; simpl; done. Qed.

Lemma sup_step_plain a ag nid c :
  restart a = false → plain_run c →
  ∃ ag1 nid1 c1 e,
    (∀ fs, sup_step int a (State ag fs nid c) = (State ag1 fs nid1 c1, e))
    ∧ plain_run c1 ∧ main_events e = e.
Proof.
  intros Hr Hp.
  assert (∀ (r : bool → state * list event) ag1 nid1 c1 e,
            (∀ fs, r fs = (State ag1 fs nid1 c1, e)) →
            plain_run c1 → main_events e = e →
            ∃ ag1 nid1 c1 e,
              (∀ fs, r fs = (State ag1 fs nid1 c1, e))
              ∧ plain_run c1 ∧ main_events e = e) as Hex by eauto 10.
  apply (Hex (λ fs, sup_step int a (State ag fs nid c))
           (sup_step int a (State ag false nid c)).1.(agents)
           (sup_step int a (State ag false nid c)).1.(next_oid)
           (sup_step int a (State ag false nid c)).1.(ctl)
           (sup_step int a (State ag false nid c)).2).
  all: destruct c as [|oa os p| |e]; cbn [sup_step ctl].
  all: try match goal with
           | |- context [split ?c ?o] =>
               destruct (split c o) as [|? [|? [|? ?]]]
           end.
  all: try (destruct p as [| |[|? ?] ? ?|?|?| | |]; simpl in Hp; try done).
  all: try match goal with |- context [int ?x] => destruct (int x) end.
  all: rewrite ?Hr; unfold goto; simpl; done.
Qed.

Lemma exec_plain_ignores_flag a sched : ∀ ag fs fs' nid c,
  restart a = false → plain_run c →
  let r := exec int a sched (State ag fs nid c) in
  let r' := exec int a (replicate (ticks sched) Tick) (State ag fs' nid c) in
  agents r.1 = agents r'.1 ∧ ctl r.1 = ctl r'.1
  ∧ next_oid r.1 = next_oid r'.1 ∧ main_events r.2 = r'.2.
Proof.
  induction sched as [|act sched IH]; intros ag fs fs' nid c Hr Hp; [done|].
  cbv zeta. destruct act.
  - cbn [ticks replicate].
    rewrite !exec_cons_state, !exec_cons_events. cbn [step].
    destruct (sup_step_plain a ag nid c Hr Hp)
      as (ag1 & nid1 & c1 & e & Hstep & Hp1 & He).
    rewrite !Hstep. cbn [fst snd].
    destruct (IH ag1 fs fs' nid1 c1 Hr Hp1) as (H1 & H2 & H3 & H4).
    repeat split; try done. by rewrite main_events_app, He, H4.
  - cbn [ticks]. rewrite exec_cons_state, exec_cons_events.
    cbn [step on_force_exit fst snd agents next_oid ctl].
    destruct (IH ag true fs' nid c Hr Hp) as (H1 & H2 & H3 & H4).
    repeat split; try done.
    change (Stdout "FORCE EXIT" :: (Stop <$> ag))
      with ([Stdout "FORCE EXIT"] ++ (Stop <$> ag)).
    by rewrite !main_events_app, main_events_stops, H4.
Qed.

(** X8: without [--restart] the main thread never reads [force_stopped]:
    whatever signals are interleaved, [run_cmd] ends with the same [agents]
    at the same control point, and the main thread has the same events, as
    in the run with the same number of statements and no signal.  A
    force-stop does not prevent or cut short the launch. *)
Theorem plain_run_ignores_signals (a : args) (sched : list action) :
  restart a = false →
  let r := exec int a sched initial in
  let r' := exec int a (replicate (ticks sched) Tick) initial in
  agents r.1 = agents r'.1 ∧ ctl r.1 = ctl r'.1
  ∧ next_oid r.1 = next_oid r'.1 ∧ main_events r.2 = r'.2.
Proof. intros Hr. by apply exec_plain_ignores_flag. Qed.

(** *** The life cycle of handles *)

Lemma life_cycle_stops made seen c ev :
  (∀ h, h ∈ c → h ∈ seen) →
  life_cycle made seen ((Stop <$> c) ++ ev) = life_cycle made seen ev.
Proof.
  induction c as [|h c IH]; intros Hc; [done|].
  cbn [fmap list_fmap app life_cycle].
  fold (fmap (M:=list) Stop). rewrite IH.
  - rewrite bool_decide_eq_true_2; [done|]. apply Hc, list_elem_of_here.
  - intros h' Hh'. apply Hc. by apply list_elem_of_further.
Qed.

Lemma exec_life_cycle a sched : ∀ s made seen,
  (∀ h, h ∈ held s → h ∈ seen) →
  life_cycle made seen (exec int a sched s).2 = true.
Proof.
  induction sched as [|act sched IH]; intros s made seen Hh; [done|].
  rewrite exec_cons_events. destruct act.
  - control_cases s; subst; unfold held in *;
      cbn [agents ctl launching] in *.
    1: destruct (split ":" (orchestrator a)) as [|? [|? [|? ?]]].
    all: try match goal with |- context [int ?x] => destruct (int x) end.
    all: try match goal with
             | |- context [if ?b then _ else _] => destruct b
             end.
    all: unfold goto, loop_body;
      cbn [fst snd app life_cycle agents ctl force_stopped next_oid
           started_agents].
    all: try (apply IH; unfold held; cbn [agents ctl launching started_agents];
              intros h' Hh'; apply Hh; clear -Hh';
              rewrite ?elem_of_app, ?elem_of_nil in *; tauto).
    + (* one more agent is started *)
      rewrite bool_decide_eq_true_2 by apply list_elem_of_here.
      apply IH. unfold held. cbn [agents ctl launching started_agents].
      intros h' Hh'. rewrite !elem_of_app in Hh'.
      rewrite list_elem_of_singleton, elem_of_nil in Hh'.
      apply elem_of_cons.
      destruct Hh' as [Hh'|[[Hh'|Hh']|[]]]; [right|right|by left];
        apply Hh; rewrite ?elem_of_app; tauto.
    + (* a join returns *)
      rewrite bool_decide_eq_true_2.
      2: { apply Hh. rewrite !elem_of_app, elem_of_cons. tauto. }
      apply IH. unfold held. cbn [agents ctl launching started_agents].
      intros h' Hh'. apply Hh.
      rewrite !elem_of_app, ?elem_of_cons in *. tauto.
  - cbn [step on_force_exit fst snd app life_cycle].
    rewrite life_cycle_stops.
    + apply IH. intros h Hin. apply Hh. exact Hin.
    + intros h Hin. apply Hh. unfold held. rewrite elem_of_app. by left.
Qed.

(** X9: along every schedule start() is only called on a handle that has
    been constructed, and join() and stop() only on handles that have been
    started: [agents] never holds a handle that is not started. *)
Theorem handles_started_before_join_and_stop (a : args)
    (sched : list action) :
  life_cycle [] [] (exec int a sched initial).2 = true.
Proof. apply exec_life_cycle. intros h Hh. by apply elem_of_nil in Hh. Qed.

End Supervisor_invariants.

Section Supervisor_cohorts.

Variable int : string → option Z.

(** *** A launch under way is out of reach of the handler *)

Lemma younger_initial : younger initial.
Proof.
  split; [apply inv_initial|]. intros g h Hg. by apply elem_of_nil in Hg.
Qed.

Lemma younger_step a act s : younger s → younger (step int a act s).1.
Proof.
  intros [Hinv Hy]. split; [by apply inv_step|].
  destruct act; [|exact Hy].
  destruct Hinv as [[_ Hlt] _]. rewrite Forall_forall in Hlt.
  control_cases s; subst; cbn [launching] in *.
  1: destruct (split ":" (orchestrator a)) as [|? [|? [|? ?]]].
  all: try match goal with |- context [int ?x] => destruct (int x) end.
  all: try match goal with
           | |- context [if ?b then _ else _] => destruct b
           end.
  all: unfold goto, loop_body;
    cbn [fst snd agents ctl launching started_agents].
  all: try (intros g h Hg Hh; by apply elem_of_nil in Hh).
  all: try exact Hy.
  intros g h Hg Hh. apply elem_of_app in Hh as [Hh|Hh].
  - by apply Hy.
  - apply list_elem_of_singleton in Hh as ->. simpl. by apply Hlt.
Qed.

Lemma younger_exec a sched : ∀ s, younger s → younger (exec int a sched s).1.
Proof.
  induction sched as [|act sched IH]; intros s Hs; [done|].
  rewrite exec_cons_state. by apply IH, younger_step.
Qed.

(** X10: a signal handled while a launch is under way does not reach the
    agents this launch has already started: they are not in [agents] yet,
    and the handler calls stop() on none of them. *)
Theorem launch_under_way_is_not_stopped (a : args) (sched : list action)
    (h : agent) :
  h ∈ launching (ctl (exec int a sched initial).1) →
  (h ∉ agents (exec int a sched initial).1)
  ∧ stops_of h (on_force_exit (exec int a sched initial).1).2 = 0%nat.
Proof.
  intros Hh.
  destruct (younger_exec a sched initial younger_initial) as [_ Hy].
  assert (h ∉ agents (exec int a sched initial).1) as Hn.
  { intros Hin. specialize (Hy h h Hin Hh). lia. }
  split; [done|]. cbn [on_force_exit snd].
  unfold stops_of. rewrite filter_cons_False by done.
  by apply stops_of_absent.
Qed.

(** *** [agents] is empty or a complete cohort *)


Lemma whole_initial a : whole a initial.
Proof. split; [by left | done]. Qed.

Lemma whole_step a act s : whole a s → whole a (step int a act s).1.
Proof.
  intros [Hag Hc]. destruct act; [|done].
  control_cases s; subst.
  1: destruct (split ":" (orchestrator a)) as [|? [|? [|? ?]]].
  all: try match goal with |- context [int ?x] => destruct (int x) end.
  all: try match goal with
           | |- context [if ?b then _ else _] => destruct b
           end.
  all: unfold whole, goto, loop_body;
    cbn [fst snd agents ctl next_oid started_agents a_port u_port].
  all: try done.
  - (* the call is evaluated *)
    split; [done|]. by exists nid.
  - (* the loop over the names is over *)
    split; [done|]. destruct Hc as [id Hc]. rewrite app_nil_r in Hc.
    eexists _, _, id. rewrite start_agents_closed. exact Hc.
  - (* one more agent is started *)
    split; [done|]. destruct Hc as [id Hc]. exists id.
    rewrite <- Hc, <- app_assoc. reflexivity.
  - (* the global is assigned, with [--restart] *)
    split; [by right | by exists []].
  - (* the global is assigned, without *)
    split; [by right | done].
  - (* a join returns *)
    split; [done|]. destruct Hc as [joined Hc]. exists (joined ++ [a0]).
    by rewrite <- app_assoc.
Qed.

Lemma whole_exec a sched : ∀ s, whole a s → whole a (exec int a sched s).1.
Proof.
  induction sched as [|act sched IH]; intros s Hs; [done|].
  rewrite exec_cons_state. by apply IH, whole_step.
Qed.

(** X11: whenever a signal can be handled, [agents] is empty (before the
    first launch is assigned) or is the complete result of one
    [start_agents] call: one handle per name, in the order of the names,
    on the message ports port, port+1, ...  The handler never iterates over
    a cohort that is only partly built. *)
Theorem agents_empty_or_complete (a : args) (sched : list action) :
  agents (exec int a sched initial).1 = []
  ∨ (is_cohort a (agents (exec int a sched initial).1)
     ∧ agt_def <$> agents (exec int a sched initial).1 = names a
     ∧ message_port <$> agents (exec int a sched initial).1
       = seqZ (port a) (Z.of_nat (length (names a)))).
Proof.
  destruct (whole_exec a sched initial (whole_initial a)) as [[He|Hc] _];
    [by left | right].
  split; [done|]. destruct Hc as (oa & n & id & ->).
  rewrite start_agents_closed. cbn [fst].
  split; [apply cohort_names | apply cohort_message_ports].
Qed.



End Supervisor_cohorts.

Section Supervisor_arguments.

Variable int : string → option Z.

Lemma exec_news_arguments a o_addr o_str n sched : ∀ s,
  split ":" (orchestrator a) = [o_addr; o_str] →
  int o_str = Some n →
  match ctl s with
  | Running oa os p =>
      oa = o_addr ∧ os = o_str
      ∧ match p with In_start _ m _ => m = n | _ => True end
  | _ => True
  end →
  Forall (λ h, orchestrator_address h = (o_addr, n)
               ∧ (comm h).1 = address a)
    (news (exec int a sched s).2).
Proof.
  induction sched as [|act sched IH]; intros s Hs Hn Hc; [constructor|].
  rewrite exec_cons_events. unfold news. rewrite omap_app. fold news.
  apply Forall_app. destruct act.
  - control_cases s; subst.
    1: rewrite Hs.
    all: try destruct Hc as (-> & -> & Hc).
    all: rewrite ?Hn.
    all: try match goal with
             | |- context [if ?b then _ else _] => destruct b
             end.
    all: unfold goto, loop_body; simpl; subst.
    all: split; [by repeat constructor | by apply IH].
  - cbn [step on_force_exit fst snd]. split.
    + change (omap is_new (Stdout "FORCE EXIT" :: (Stop <$> agents s)))
        with (omap is_new (Stop <$> agents s)).
      rewrite omap_stops by done. constructor.
    + by apply IH.
Qed.

(** X13: every agent [run_cmd] constructs is given the orchestrator address
    of the command line, the text before the ':' and the integer after it,
    and listens on the address of [--address]. *)
Theorem handles_carry_command_line (a : args) (o_addr o_str : string) (n : Z)
    (sched : list action) :
  split ":" (orchestrator a) = [o_addr; o_str] →
  int o_str = Some n →
  Forall (λ h, orchestrator_address h = (o_addr, n)
               ∧ (comm h).1 = address a)
    (news (exec int a sched initial).2).
Proof. intros Hs Hn. by apply (exec_news_arguments a o_addr o_str n). Qed.

End Supervisor_arguments.

(** ** Concrete runs of the further properties *)

Lemma orchestrator_needs_one_separator_witness :
  count_sep ":" (orchestrator ipv6_orchestrator) ≠ 1%nat
  ∧ sup_step decimal ipv6_orchestrator initial =
      (State [] false 0 (Raised ValueError), []).
Proof.
  assert (count_sep ":" (orchestrator ipv6_orchestrator) ≠ 1%nat) as H
    by (vm_compute; lia).
  split; [exact H|].
  exact (proj1 (orchestrator_needs_one_separator decimal ipv6_orchestrator
                  [] H)).
Defined.

Lemma orchestrator_unpacked_witness :
  count_sep ":" (orchestrator three_agents) = 1%nat
  ∧ ∃ o_addr o_str,
      sup_step decimal three_agents initial =
        (State [] false 0
           (Running o_addr o_str
              (if restart three_agents then At_while else At_call)), [])
      ∧ orchestrator three_agents = String.append o_addr (String ":" o_str)
      ∧ occurs ":" o_addr = false ∧ occurs ":" o_str = false.
Proof.
  split; [reflexivity|].
  exact (orchestrator_unpacked decimal three_agents eq_refl).
Defined.


Lemma force_stop_ends_run_witness :
  force_stopped
    (on_force_exit
       (exec decimal one_agent_restart (replicate 6 Tick) initial).1).1 = true
  ∧ (remaining one_agent_restart
       (ctl (on_force_exit
               (exec decimal one_agent_restart (replicate 6 Tick)
                  initial).1).1)
     ≤ ticks [Tick; Signal; Tick; Tick])%nat
  ∧ finished
      (ctl (exec decimal one_agent_restart [Tick; Signal; Tick; Tick]
              (on_force_exit
                 (exec decimal one_agent_restart (replicate 6 Tick)
                    initial).1).1).1) = true.
Proof.
  split; [reflexivity|]. split; [vm_compute; lia|].
  apply (force_stop_ends_run decimal one_agent_restart);
    [reflexivity | vm_compute; lia].
Defined.

Lemma restart_loop_never_returns_witness :
  restart two_agents_restart = true
  ∧ split ":" (orchestrator two_agents_restart) = ["127.0.0.1"; "9000"]
  ∧ decimal "9000" = Some 9000
  ∧ finished
      (ctl (exec decimal two_agents_restart (replicate 40 Tick) initial).1)
    = false.
Proof.
  split; [reflexivity|]. split; [reflexivity|]. split; [reflexivity|].
  exact (proj1 (restart_loop_never_returns decimal two_agents_restart
                  "127.0.0.1" "9000" 9000 40 eq_refl eq_refl eq_refl)).
Defined.

Lemma plain_run_ignores_signals_witness :
  restart three_agents = false
  ∧ agents (exec decimal three_agents
              [Tick; Signal; Tick; Tick; Signal; Tick; Tick; Tick; Tick]
              initial).1
    = agents (exec decimal three_agents
                (replicate
                   (ticks [Tick; Signal; Tick; Tick; Signal; Tick; Tick;
                           Tick; Tick]) Tick) initial).1.
Proof.
  split; [reflexivity|].
  apply (plain_run_ignores_signals decimal three_agents
           [Tick; Signal; Tick; Tick; Signal; Tick; Tick; Tick; Tick]).
  reflexivity.
Defined.

Lemma launch_under_way_is_not_stopped_witness :
  OrchestratedAgent 1 "a1" (None, 9001) ("127.0.0.1", 9000) None
    ∈ launching
        (ctl (exec decimal one_agent_restart (replicate 14 Tick) initial).1)
  ∧ stops_of (OrchestratedAgent 1 "a1" (None, 9001) ("127.0.0.1", 9000) None)
      (on_force_exit
         (exec decimal one_agent_restart (replicate 14 Tick) initial).1).2
    = 0%nat.
Proof.
  assert (OrchestratedAgent 1 "a1" (None, 9001) ("127.0.0.1", 9000) None
            ∈ launching
                (ctl (exec decimal one_agent_restart (replicate 14 Tick)
                        initial).1)) as Hin.
  { vm_compute. apply list_elem_of_here. }
  split; [exact Hin|].
  exact (proj2 (launch_under_way_is_not_stopped decimal one_agent_restart
                  (replicate 14 Tick) _ Hin)).
Defined.


Lemma handles_carry_command_line_witness :
  split ":" (orchestrator two_agents_restart) = ["127.0.0.1"; "9000"]
  ∧ decimal "9000" = Some 9000
  ∧ Forall (λ h, orchestrator_address h = ("127.0.0.1", 9000)
                 ∧ (comm h).1 = address two_agents_restart)
      (news (exec decimal two_agents_restart (replicate 5 Tick) initial).2).
Proof.
  split; [reflexivity|]. split; [reflexivity|].
  apply (handles_carry_command_line decimal two_agents_restart "127.0.0.1"
           "9000" 9000 (replicate 5 Tick)); reflexivity.
Defined.
